(** * PipeModeDataset: the TensorFlow dataset kernel reading SageMaker pipe-mode FIFOs

    A shallow embedding of [pipemode_dataset_op_kernel.cpp]:
    - [BuildPipeName], the FIFO naming rule;
    - [PipeModeDatasetOp::MakeDataset], the argument boundary;
    - [Dataset::MakeIterator] and [Dataset::AsGraphDefInternal];
    - [Iterator::Iterator] (reader selection) and [Iterator::GetNextInternal].

    Conventions.  [std::string] is [string]; [size_t] is a 64-bit unsigned
    integer carried in [Z] with its wrap-around written out; [uint32_t] is an
    [N] reduced modulo [2^32]; a C++ exception is a value of [exn]; undefined
    behaviour is the result [None]. *)

From Stdlib Require Import ZArith NArith String Ascii List Lia Sorted.
From Stdlib Require Import DecimalString DecimalN DecimalFacts.
From stdpp Require Import gmap strings list.

Open Scope string_scope.

(** ** Integers of the C++ program *)

Module Cxx.

(** [size_t] on the LP64 targets TensorFlow is built for. *)
Definition size_bits : Z := 64.
Definition SIZE_MAX : Z := 2 ^ size_bits - 1.

(** [a - b] in [size_t]. *)
Definition size_sub (a b : Z) : Z := (a - b) mod 2 ^ size_bits.

(** Conversion to [uint32_t]. *)
Definition uint32 (n : N) : N := (n mod 2 ^ 32)%N.

(** [std::string::length]. *)
Definition length (s : string) : Z := Z.of_nat (String.length s).

(** [std::string::operator[]]: the character at [pos] when [pos < size()],
    the terminating NUL when [pos = size()], undefined beyond. *)
Definition at_index (s : string) (pos : Z) : option ascii :=
  if (pos <? length s)%Z then String.get (Z.to_nat pos) s
  else if (pos =? length s)%Z then Some zero
  else None.

(** [std::to_string] on an unsigned value: its decimal digits. *)
Definition to_string (n : N) : string :=
  NilEmpty.string_of_uint (N.to_uint n).

End Cxx.

(** ** The FIFO naming rule *)

(** [BuildPipeName], lines 57-66.  The test [channel_path[length() - 1] != '/']
    reads the string through [operator[]] at an index computed in [size_t]. *)
Definition BuildPipeName (channel_directory channel_name : string)
    (pipe_index : N) : option string :=
  let pipe_name := channel_name ++ "_" ++ Cxx.to_string pipe_index in
  let channel_path := channel_directory in
  match Cxx.at_index channel_path (Cxx.size_sub (Cxx.length channel_path) 1) with
  | None => None
  | Some c =>
      let channel_path :=
        if Ascii.eqb c "/" then channel_path else channel_path ++ "/" in
      Some (channel_path ++ pipe_name)
  end.

(** The last character of a string, as a specification of what the
    trailing-slash test is meant to look at. *)
Fixpoint last_char (s : string) : option ascii :=
  match s with
  | EmptyString => None
  | String c EmptyString => Some c
  | String _ s' => last_char s'
  end.

Definition ends_with_slash (s : string) : bool :=
  match last_char s with
  | Some c => Ascii.eqb c "/"
  | None => false
  end.

(** ** Exceptions, statuses and tensors *)

(** A C++ exception in flight.  [Iterator::GetNextInternal] catches
    [std::runtime_error] (and what derives from it) and nothing else, so the
    model keeps the two kinds apart. *)
Inductive exn : Type :=
  | runtime_error (what : string)
  | exception (what : string).

(** The result of a call that may throw. *)
Inductive outcome (A : Type) : Type :=
  | Returned (a : A)
  | Thrown (e : exn).
Arguments Returned {A} a.
Arguments Thrown {A} e.

Inductive Code : Type := OK | INVALID_ARGUMENT | INTERNAL.

Record Status : Type := mkStatus { code : Code; error_message : string }.

Definition Status_OK : Status := mkStatus OK "".
Definition InvalidArgument (msg : string) : Status := mkStatus INVALID_ARGUMENT msg.

Inductive DataType : Type := DT_STRING | DT_VARIANT.

Record Tensor : Type := mkTensor {
  dtype : DataType;
  shape : list nat;
  flat : list string
}.

(** [Tensor result_tensor(DT_STRING, TensorShape({}))] holding [s]. *)
Definition scalar_string (s : string) : Tensor := mkTensor DT_STRING [] [s].

(** ** The host's kernel context *)

(** What [MakeDataset] uses of the host framework: the kernel context, the
    helper that reads a named scalar argument from it, and the recording of a
    failure status ([OP_REQUIRES] and [OP_REQUIRES_OK] both end in it). *)
Class Host : Type := {
  OpKernelContext : Type;
  ParseScalarArgument : OpKernelContext -> string -> Status + string;
  CtxFailure : OpKernelContext -> Status -> OpKernelContext
}.

(** ** The world *)

(** The part of the world the kernel acts on: the persisted pipe indexes, one
    per state directory and channel; for each path, the bytes the producer
    writes into the FIFO there before it closes its end, or [None] when the
    path cannot be opened for reading; and the FIFO paths readers were
    constructed on, oldest first. *)
Record World : Type := mkWorld {
  state_files : gmap (string * string) N;
  fifo_bytes : string -> option string;
  opened_fifos : list string
}.

(** ** The record readers *)

(** [RecordReader]: the interface the three readers implement.  A reader is
    constructed on a pipe path of the world; [ReadRecord(storage)] returns
    [true] with the record in [storage] ([Returned (Some r)]), returns [false]
    ([Returned None]), or throws. *)
Class RecordReader (R : Type) : Type := {
  reader_new : World -> string -> outcome R;
  ReadRecord : R -> outcome (option string) * R
}.

Definition LF : ascii := "010"%char.

(** Modelled from the spec: the line splitting of [TextLineRecordReader] (its
    source is not part of this file), section 4.1: read bytes until a line
    feed is found or the stream ends and return the bytes before the delimiter;
    a non-empty trailing fragment is a final record.  The result is the line
    and the bytes after its delimiter. *)
Fixpoint split_line (s : string) : string * string :=
  match s with
  | EmptyString => (EmptyString, EmptyString)
  | String c s' =>
      if Ascii.eqb c LF then (EmptyString, s')
      else let (line, rest) := split_line s' in (String c line, rest)
  end.

(** Modelled from the spec: the state of a [TextLineRecordReader], the bytes
    of its stream that no record has consumed yet. *)
Record TextLineRecordReader : Type := mkTextLine { pending : string }.

(** Modelled from the spec: [TextLineRecordReader::ReadRecord], section 4.1:
    no record on a stream that is empty (also after a final delimiter);
    otherwise the bytes up to the next line feed or the end of the stream. *)
Definition TextLine_ReadRecord (r : TextLineRecordReader)
    : outcome (option string) * TextLineRecordReader :=
  match pending r with
  | EmptyString => (Returned None, r)
  | s => let (line, rest) := split_line s in (Returned (Some line), mkTextLine rest)
  end.

(** Pulls records until end-of-stream, at most [fuel] of them. *)
Fixpoint TextLine_read_all (fuel : nat) (r : TextLineRecordReader)
    : list string * TextLineRecordReader :=
  match fuel with
  | O => ([], r)
  | S fuel' =>
      match TextLine_ReadRecord r with
      | (Returned (Some line), r') =>
          let (lines, r'') := TextLine_read_all fuel' r' in (line :: lines, r'')
      | (_, r') => ([], r')
      end
  end.

(** Every record consumes at least one byte, so the length of the stream
    plus one is fuel enough. *)
Definition TextLine_records (s : string) : list string :=
  fst (TextLine_read_all (S (String.length s)) (mkTextLine s)).

(** The records of a stream joined again, each followed by its delimiter. *)
Fixpoint join_lines (l : list string) : string :=
  match l with
  | [] => EmptyString
  | x :: l' => x ++ String LF (join_lines l')
  end.

Fixpoint contains_LF (s : string) : bool :=
  match s with
  | EmptyString => false
  | String c s' => Ascii.eqb c LF || contains_LF s'
  end.

(** The stream with a final delimiter added when its last line lacks one. *)
Definition terminated (s : string) : string :=
  match last_char s with
  | None => s
  | Some c => if Ascii.eqb c LF then s else s ++ String LF EmptyString
  end.

Definition nl : string := String LF EmptyString.

(** Modelled from the spec: the failure of a reader's construction,
    sections 4.4 and 7 (a path that cannot be read). *)
Definition ConstructionError : exn := exception "ConstructionError".

(** Modelled from the spec: the constructor of [TextLineRecordReader],
    sections 4.4 and 7: it opens the FIFO at the path, which blocks until a
    producer attaches, and fails with a construction error on a path that
    cannot be read. *)
#[local] Instance TextLineReader : RecordReader TextLineRecordReader := {
  reader_new w path :=
    match fifo_bytes w path with
    | Some bytes => Returned (mkTextLine bytes)
    | None => Thrown ConstructionError
    end;
  ReadRecord := TextLine_ReadRecord
}.

(** ** The pipe index store *)

(** Modelled from the spec: [PipeStateManager] (its source is not part of this
    file), section 4.3: a [u32] index per (state directory, channel);
    [get_index] returns the last persisted value, or 0 when no state exists;
    [increment] persists the index plus one; a failure to persist raises
    [StatePersistError] and does not advance the index. *)
Record PipeStateManager : Type := mkPipeStateManager {
  psm_state_directory : string;
  psm_channel : string
}.

(** Modelled from the spec: the error of a failed persist, section 7. *)
Definition StatePersistError : exn := exception "StatePersistError".

(** Modelled from the spec: [PipeStateManager::GetPipeIndex], section 4.3: the
    last persisted value, or 0 when no state exists yet. *)
Definition GetPipeIndex (m : PipeStateManager) (w : World) : N :=
  default 0%N (state_files w !! (psm_state_directory m, psm_channel m)).

(** Modelled from the spec: [PipeStateManager::IncrementPipeIndex], section
    4.3: persists the index plus one, a [u32]; [persists] says whether the
    write to the state directory goes through, and a failed write raises
    [StatePersistError] with the index as it was. *)
Definition IncrementPipeIndex (m : PipeStateManager) (persists : bool) (w : World)
    : outcome World :=
  if persists then
    Returned (mkWorld
      (<[(psm_state_directory m, psm_channel m) :=
           Cxx.uint32 (GetPipeIndex m w + 1)]> (state_files w))
      (fifo_bytes w) (opened_fifos w))
  else Thrown StatePersistError.

(** The format tags [MakeDataset] lets through. *)
Definition supported_format (record_format : string) : Prop :=
  record_format = "RecordIO" \/ record_format = "TFRecord"
  \/ record_format = "TextLine".

(** ** The dataset and its iterator *)

Record Dataset : Type := mkDataset {
  record_format_ : string;
  channel_directory_ : string;
  channel_ : string;
  pipe_state_manager_ : PipeStateManager
}.

(** The constructor of [Dataset], lines 102-108. *)
Definition Dataset_new (record_format state_directory channel_directory channel : string)
    : Dataset :=
  mkDataset record_format channel_directory channel
    (mkPipeStateManager state_directory channel).

(** [Dataset::AsGraphDefInternal], lines 134-137: an unconditional [throw]. *)
Definition AsGraphDefInternal {Builder Node : Type}
    (ds : Dataset) (b : Builder) (output : option Node)
    : outcome (Status * option Node) :=
  Thrown (runtime_error "Conversion to GraphDef is not supported.").

(** [Dataset::output_dtypes], lines 120-123: one component, a string. *)
Definition output_dtypes : list DataType := [DT_STRING].

(** Whether a character occurs in a string. *)
Fixpoint contains_char (c : ascii) (s : string) : bool :=
  match s with
  | EmptyString => false
  | String x s' => Ascii.eqb x c || contains_char c s'
  end.

Section Kernel.

Context {host : Host}.
Context {RIO TFR : Type}.
Context {RecordIOReader : RecordReader RIO}.
Context {TFRecordReader : RecordReader TFR}.

(** [std::unique_ptr<RecordReader>]: one of the three readers, called
    through the interface. *)
Inductive reader_ptr : Type :=
  | RecordIO (r : RIO)
  | TFRecord (r : TFR)
  | TextLine (r : TextLineRecordReader).

Definition reader_ReadRecord (p : reader_ptr) : outcome (option string) * reader_ptr :=
  match p with
  | RecordIO r => let (o, r') := ReadRecord r in (o, RecordIO r')
  | TFRecord r => let (o, r') := ReadRecord r in (o, TFRecord r')
  | TextLine r => let (o, r') := ReadRecord r in (o, TextLine r')
  end.

(** The iterator: the prefix of its [Params] and its reader.  [pipe_index]
    and [pipe_path] are ghost fields: the constructor's argument and its
    local variable, which the C++ object passes on to the reader only. *)
Record Iterator : Type := mkIterator {
  prefix : string;
  pipe_index : N;
  pipe_path : string;
  record_reader_ : reader_ptr
}.

Definition with_reader (it : Iterator) (p : reader_ptr) : Iterator :=
  mkIterator (prefix it) (pipe_index it) (pipe_path it) p.

Definition outcome_map {A B : Type} (f : A -> B) (o : outcome A) : outcome B :=
  match o with
  | Returned a => Returned (f a)
  | Thrown e => Thrown e
  end.

(** The constructor of [Iterator], lines 147-158.  [None] is the undefined
    behaviour of [BuildPipeName]; constructing a reader on a path is logged
    in the world. *)
Definition Iterator_new (params_prefix record_format channel_directory channel : string)
    (index : N) (w : World) : option (outcome Iterator * World) :=
  match BuildPipeName channel_directory channel index with
  | None => None
  | Some path =>
      let w' := mkWorld (state_files w) (fifo_bytes w) (opened_fifos w ++ [path]) in
      let made :=
        if String.eqb record_format "RecordIO" then
          outcome_map RecordIO (reader_new w path)
        else if String.eqb record_format "TFRecord" then
          outcome_map TFRecord (reader_new w path)
        else
          outcome_map TextLine (reader_new w path) in
      Some (outcome_map (mkIterator params_prefix index path) made, w')
  end.

(** [PipeModeDatasetOp::MakeDataset], lines 81-97.  The result is the
    context, [*output] (left unset on a failure) and the world. *)
Definition MakeDataset (ctx : OpKernelContext) (w : World)
    : OpKernelContext * option Dataset * World :=
  match ParseScalarArgument ctx "record_format" with
  | inl s => (CtxFailure ctx s, None, w)
  | inr record_format =>
  match ParseScalarArgument ctx "state_directory" with
  | inl s => (CtxFailure ctx s, None, w)
  | inr state_directory =>
  match ParseScalarArgument ctx "channel_directory" with
  | inl s => (CtxFailure ctx s, None, w)
  | inr channel_directory =>
  match ParseScalarArgument ctx "channel" with
  | inl s => (CtxFailure ctx s, None, w)
  | inr channel =>
      if String.eqb record_format "RecordIO"
         || String.eqb record_format "TFRecord"
         || String.eqb record_format "TextLine"
      then
        (ctx,
         Some (Dataset_new record_format state_directory channel_directory channel),
         w)
      else
        (CtxFailure ctx (InvalidArgument ("Invalid record format: " ++ record_format)),
         None, w)
  end end end end.

(** [Dataset::MakeIterator], lines 110-118: the index is read for the
    prefix, read again for the iterator, and incremented once the iterator
    is built.  An exception from the constructor or from the increment
    leaves the call without an iterator. *)
Definition MakeIterator (ds : Dataset) (prefix : string) (persists : bool) (w : World)
    : option (outcome Iterator * World) :=
  let new_prefix :=
    prefix ++ "::PipeMode-" ++ channel_ ds ++ "-"
      ++ Cxx.to_string (GetPipeIndex (pipe_state_manager_ ds) w) in
  match Iterator_new new_prefix (record_format_ ds) (channel_directory_ ds)
          (channel_ ds) (Cxx.uint32 (GetPipeIndex (pipe_state_manager_ ds) w)) w with
  | None => None
  | Some (Thrown e, w1) => Some (Thrown e, w1)
  | Some (Returned ptr, w1) =>
      match IncrementPipeIndex (pipe_state_manager_ ds) persists w1 with
      | Thrown e => Some (Thrown e, w1)
      | Returned w2 => Some (Returned ptr, w2)
      end
  end.

(** A run of [MakeIterator] calls on one dataset, each with its prefix and
    with whether its write to the state directory goes through. *)
Fixpoint MakeIterators (ds : Dataset) (calls : list (string * bool)) (w : World)
    : option (list (outcome Iterator) * World) :=
  match calls with
  | [] => Some ([], w)
  | (prefix, persists) :: calls' =>
      match MakeIterator ds prefix persists w with
      | None => None
      | Some (r, w1) =>
          match MakeIterators ds calls' w1 with
          | None => None
          | Some (rs, w2) => Some (r :: rs, w2)
          end
      end
  end.

(** The iterators a run handed back to its caller. *)
Fixpoint returned_iterators (rs : list (outcome Iterator)) : list Iterator :=
  match rs with
  | [] => []
  | Returned it :: rs' => it :: returned_iterators rs'
  | Thrown _ :: rs' => returned_iterators rs'
  end.

(** What one call of [GetNextInternal] leaves behind: what it returned (or
    threw), the caller's [out_tensors] and [end_of_sequence], and the
    iterator. *)
Record Pull : Type := mkPull {
  result : outcome Status;
  out_tensors : list Tensor;
  end_of_sequence : bool;
  self : Iterator
}.

(** [Iterator::GetNextInternal], lines 160-177.  [storage] starts as the empty
    scalar of [result_tensor]; the tensor is moved into [out_tensors] only
    when [ReadRecord] returns [true].  The calls on one iterator are
    serialized by [mu_], so the model runs them one after the other. *)
Definition GetNextInternal (it : Iterator) (out : list Tensor) (eos : bool) : Pull :=
  let eos := false in
  match reader_ReadRecord (record_reader_ it) with
  | (Returned (Some storage), r') =>
      mkPull (Returned Status_OK) (out ++ [scalar_string storage]) eos (with_reader it r')
  | (Returned None, r') =>
      mkPull (Returned Status_OK) out true (with_reader it r')
  | (Thrown (runtime_error what), r') =>
      mkPull (Returned (mkStatus INTERNAL what)) out eos (with_reader it r')
  | (Thrown e, r') =>
      mkPull (Thrown e) out eos (with_reader it r')
  end.

(** The reader after [n] further calls of [ReadRecord]. *)
Fixpoint reader_after (n : nat) (p : reader_ptr) : reader_ptr :=
  match n with
  | O => p
  | S n' => reader_after n' (snd (reader_ReadRecord p))
  end.

(** The iterator after [n] further calls of [GetNextInternal]. *)
Fixpoint iterator_after (n : nat) (it : Iterator) : Iterator :=
  match n with
  | O => it
  | S n' => iterator_after n' (self (GetNextInternal it [] false))
  end.

(** An iterator built on the index and the path of its constructor call. *)
Definition built_on (ds : Dataset) (it : Iterator) : Prop :=
  BuildPipeName (channel_directory_ ds) (channel_ ds) (pipe_index it)
    = Some (pipe_path it).

(** A pull that ended the sequence or failed. *)
Definition terminal (p : Pull) : Prop :=
  result p <> Returned Status_OK \/ end_of_sequence p = true.

(** What [n] successive calls of [GetNextInternal] on one iterator left
    behind, each call handed an empty [out_tensors]. *)
Fixpoint pulls (n : nat) (it : Iterator) : list Pull :=
  match n with
  | O => []
  | S n' =>
      let p := GetNextInternal it [] false in
      p :: pulls n' (self p)
  end.

(** What the first [n] calls of [ReadRecord] on a reader returned. *)
Fixpoint reads (n : nat) (p : reader_ptr) : list (outcome (option string)) :=
  match n with
  | O => []
  | S n' => fst (reader_ReadRecord p) :: reads n' (snd (reader_ReadRecord p))
  end.

(** The tensors a call appends for a result of [ReadRecord]. *)
Definition tensors_of (o : outcome (option string)) : list Tensor :=
  match o with
  | Returned (Some record) => [scalar_string record]
  | _ => []
  end.

(** The end-of-sequence flag a call leaves for a result of [ReadRecord]. *)
Definition done_of (o : outcome (option string)) : bool :=
  match o with
  | Returned None => true
  | _ => false
  end.

(** The class of the reader behind the pointer, by the format tag that
    names it. *)
Definition reader_class (p : reader_ptr) : string :=
  match p with
  | RecordIO _ => "RecordIO"
  | TFRecord _ => "TFRecord"
  | TextLine _ => "TextLine"
  end.

(** An iterator whose prefix was composed by [MakeIterator] on some caller's
    prefix and ends in the decimal digits of its own pipe index. *)
Definition names_index (ds : Dataset) (it : Iterator) : Prop :=
  exists caller_prefix : string,
    prefix it
      = caller_prefix ++ "::PipeMode-" ++ channel_ ds ++ "-"
          ++ Cxx.to_string (pipe_index it).

End Kernel.

Arguments reader_ptr : clear implicits.
Arguments Iterator : clear implicits.
Arguments Pull : clear implicits.
Arguments built_on {RIO TFR} ds it.
Arguments names_index {RIO TFR} ds it.

(** ** A concrete host and a scripted reader *)

(** A kernel context that holds its scalar string arguments by name, with the
    status recorded so far. *)
Record ArgsContext : Type := mkArgs {
  args : list (string * string);
  status : Status
}.

Fixpoint lookup_arg (name : string) (l : list (string * string)) : option string :=
  match l with
  | [] => None
  | (k, v) :: l' => if String.eqb k name then Some v else lookup_arg name l'
  end.

Definition ArgsHost : Host := {|
  OpKernelContext := ArgsContext;
  ParseScalarArgument ctx name :=
    match lookup_arg name (args ctx) with
    | Some v => inr v
    | None => inl (InvalidArgument ("Missing argument: " ++ name))
    end;
  CtxFailure ctx s := mkArgs (args ctx) s
|}.

Definition pipemode_args (record_format state_directory channel channel_directory : string)
    : ArgsContext :=
  mkArgs [("record_format", record_format); ("state_directory", state_directory);
          ("channel", channel); ("channel_directory", channel_directory)]
         Status_OK.

(** A reader that replays a script of [ReadRecord] results, and reports no
    record once the script is over. *)
Definition Script : Type := list (outcome (option string)).

Definition ScriptedReader (script_at : string -> Script) : RecordReader Script := {|
  reader_new w path := Returned (script_at path);
  ReadRecord s :=
    match s with
    | [] => (Returned None, [])
    | o :: s' => (o, s')
    end
|}.

Definition empty_world : World := mkWorld ∅ (fun _ => Some "") [].

Definition no_script (path : string) : Script := [].

(** The dataset of channel "train", and a world whose persisted index for it
    is the largest [uint32_t]. *)
Definition train_dataset : Dataset :=
  Dataset_new "TextLine" "/opt/ml/state" "/opt/ml/input/data" "train".

Definition last_index_world : World :=
  mkWorld {[ ("/opt/ml/state", "train") := 4294967295%N ]} (fun _ => Some "") [].

(** An iterator over a RecordIO reader that meets a damaged frame and then a
    sound one. *)
Definition damaged_then_sound : Iterator Script Script :=
  mkIterator "::PipeMode-train-0" 0 "/opt/ml/input/data/train_0"
    (RecordIO [Thrown (runtime_error "Invalid magic number");
               Returned (Some "payload")]).

(** An iterator over a reader whose FIFO is closed and later written again. *)
Definition closed_then_written : Iterator Script Script :=
  mkIterator "::PipeMode-train-0" 0 "/opt/ml/input/data/train_0"
    (RecordIO [Returned None; Returned (Some "late")]).

(** An iterator over a reader whose next [ReadRecord] throws an exception
    that is no [std::runtime_error] (a [std::logic_error], say). *)
Definition logic_error_then_sound : Iterator Script Script :=
  mkIterator "::PipeMode-train-0" 0 "/opt/ml/input/data/train_0"
    (RecordIO [Thrown (exception "basic_string::substr");
               Returned (Some "payload")]).

(** A world in which no path can be opened for reading. *)
Definition unreadable_world : World := mkWorld ∅ (fun _ => None) [].

(** An iterator over a RecordIO reader with one sound frame left. *)
Definition sound_record : Iterator Script Script :=
  mkIterator "::PipeMode-train-0" 0 "/opt/ml/input/data/train_0"
    (RecordIO [Returned (Some "payload")]).

(** An iterator over a text-line reader at the end of its stream. *)
Definition drained_text : Iterator Script Script :=
  mkIterator "::PipeMode-train-0" 0 "/opt/ml/input/data/train_0"
    (TextLine (mkTextLine "")).

(** ** Facts about strings and decimal printing *)

Lemma string_app_cons (x : ascii) (a b : string) :
  String x a ++ b = String x (a ++ b).
Proof. reflexivity. Qed.

Lemma string_app_nil_l (b : string) : "" ++ b = b.
Proof. reflexivity. Qed.

Lemma string_app_assoc (a b c : string) : (a ++ b) ++ c = a ++ (b ++ c).
Proof.
  induction a as [|x a IH]; [reflexivity|].
  now rewrite !string_app_cons, IH.
Qed.

Lemma string_app_inv_head (a b c : string) : a ++ b = a ++ c -> b = c.
Proof.
  induction a as [|x a IH]; intros H; [exact H|].
  rewrite !string_app_cons in H. injection H. exact IH.
Qed.

Lemma string_app_nil_r (a : string) : a ++ "" = a.
Proof.
  induction a as [|x a IH]; [reflexivity|].
  now rewrite string_app_cons, IH.
Qed.

Lemma string_app_length (a b : string) :
  String.length (a ++ b) = (String.length a + String.length b)%nat.
Proof.
  induction a as [|x a IH]; [reflexivity|].
  rewrite string_app_cons. simpl. now rewrite IH.
Qed.

Lemma to_string_inj (m n : N) : Cxx.to_string m = Cxx.to_string n -> m = n.
Proof.
  unfold Cxx.to_string. intros H.
  assert (E : Some (N.to_uint m) = Some (N.to_uint n)).
  { rewrite <- !NilEmpty.usu. now rewrite H. }
  injection E as E.
  rewrite <- (DecimalN.Unsigned.of_to m), <- (DecimalN.Unsigned.of_to n).
  now rewrite E.
Qed.

Lemma get_last_char (s : string) :
  s <> "" -> String.get (String.length s - 1) s = last_char s.
Proof.
  induction s as [|c s IH]; [congruence|]. intros _.
  destruct s as [|d s]; [reflexivity|].
  assert (Hne : String d s <> "") by congruence.
  specialize (IH Hne).
  replace (String.length (String c (String d s)) - 1)%nat
    with (S (String.length (String d s) - 1)) by (simpl; lia).
  exact IH.
Qed.

Lemma last_index_nonempty (s : string) :
  s <> "" ->
  (0 <= Cxx.size_sub (Cxx.length s) 1 < Cxx.length s)%Z.
Proof.
  intros Hne. unfold Cxx.size_sub, Cxx.length, Cxx.size_bits.
  assert (0 < String.length s)%nat by (destruct s; [congruence | simpl; lia]).
  pose proof (Z.mod_pos_bound (Z.of_nat (String.length s) - 1) (2 ^ 64) ltac:(lia)).
  pose proof (Z.mod_le (Z.of_nat (String.length s) - 1) (2 ^ 64) ltac:(lia) ltac:(lia)).
  lia.
Qed.

Lemma last_index_exact (s : string) :
  s <> "" -> (Cxx.length s <= Cxx.SIZE_MAX)%Z ->
  Cxx.size_sub (Cxx.length s) 1 = (Cxx.length s - 1)%Z.
Proof.
  intros Hne Hmax. unfold Cxx.size_sub, Cxx.SIZE_MAX, Cxx.length, Cxx.size_bits in *.
  assert (0 < String.length s)%nat by (destruct s; [congruence | simpl; lia]).
  apply Z.mod_small. lia.
Qed.

Lemma get_in_range (s : string) (n : nat) :
  (n < String.length s)%nat -> exists c, String.get n s = Some c.
Proof.
  revert n. induction s as [|c s IH]; simpl; intros n Hn; [lia|].
  destruct n as [|n]; [eauto|]. apply IH. lia.
Qed.

(** For a non-empty directory the index is in range, so the call is defined. *)
Lemma BuildPipeName_defined (d c : string) (i : N) :
  d <> "" -> exists p, BuildPipeName d c i = Some p.
Proof.
  intros Hne. unfold BuildPipeName.
  pose proof (last_index_nonempty d Hne) as [Hlo Hhi].
  unfold Cxx.at_index.
  destruct (Z.ltb_spec (Cxx.size_sub (Cxx.length d) 1) (Cxx.length d)); [|lia].
  destruct (get_in_range d (Z.to_nat (Cxx.size_sub (Cxx.length d) 1))) as [x Hx].
  { unfold Cxx.length in *. lia. }
  rewrite Hx. eauto.
Qed.

(** What the call returns on a non-empty directory of representable length:
    the directory, a ['/'] unless it already ends in one, then the pipe name. *)
Lemma BuildPipeName_value (d c : string) (i : N) :
  d <> "" -> (Cxx.length d <= Cxx.SIZE_MAX)%Z ->
  BuildPipeName d c i =
    Some ((if ends_with_slash d then d else d ++ "/")
            ++ c ++ "_" ++ Cxx.to_string i).
Proof.
  intros Hne Hmax. unfold BuildPipeName.
  rewrite (last_index_exact d Hne Hmax).
  unfold Cxx.at_index.
  destruct (Z.ltb_spec (Cxx.length d - 1) (Cxx.length d)); [|lia].
  replace (Z.to_nat (Cxx.length d - 1)) with (String.length d - 1)%nat
    by (unfold Cxx.length; lia).
  rewrite (get_last_char d Hne). unfold ends_with_slash.
  destruct (last_char d) as [x|] eqn:E; [reflexivity|].
  destruct d as [|a d]; [congruence|]. exfalso.
  clear -E. revert a E. induction d as [|b d IH]; intros a E; simpl in E; [discriminate|].
  apply (IH b). exact E.
Qed.

(** ** [BuildPipeName] *)

Example BuildPipeName_no_trailing_slash :
  BuildPipeName "/tmp/chan" "train" 2 = Some "/tmp/chan/train_2".
Proof. reflexivity. Qed.

Example BuildPipeName_trailing_slash :
  BuildPipeName "/tmp/chan/" "train" 2 = Some "/tmp/chan/train_2".
Proof. reflexivity. Qed.

Lemma last_char_app_slash (d : string) : last_char (d ++ "/") = Some "/"%char.
Proof.
  induction d as [|a d IH]; [reflexivity|].
  rewrite string_app_cons. simpl.
  destruct (d ++ "/") eqn:E; [|exact IH].
  destruct d; discriminate.
Qed.

(** X1: exactly one separator.  A non-empty directory that does not end in
    ['/'] and the same directory followed by ['/'] name the same FIFO, the
    directory, one ['/'], the channel, ['_'] and the decimal index. *)
Lemma BuildPipeName_one_separator (d c : string) (i : N) :
  d <> "" -> (Cxx.length d < Cxx.SIZE_MAX)%Z -> ends_with_slash d = false ->
  BuildPipeName d c i = Some (d ++ "/" ++ c ++ "_" ++ Cxx.to_string i) /\
  BuildPipeName (d ++ "/") c i = BuildPipeName d c i.
Proof.
  intros Hne Hlen Hslash.
  assert (E1 : BuildPipeName d c i = Some (d ++ "/" ++ c ++ "_" ++ Cxx.to_string i)).
  { rewrite BuildPipeName_value by (auto; lia).
    rewrite Hslash. now rewrite string_app_assoc. }
  split; [exact E1|]. rewrite E1.
  rewrite BuildPipeName_value.
  - unfold ends_with_slash. rewrite last_char_app_slash. simpl.
    now rewrite string_app_assoc.
  - destruct d; [congruence | discriminate].
  - unfold Cxx.length in *. rewrite string_app_length. simpl. lia.
Qed.

(** C3, at the input where the code departs from it: with an empty base
    directory the path should be ["/train_2"], but the trailing-slash test
    reads [channel_path[SIZE_MAX]], outside the string, and the call has no
    defined result. *)
Theorem BuildPipeName_empty_directory_undefined :
  BuildPipeName "" "train" 2 = None.
Proof. reflexivity. Qed.

(** C10: pipe-path construction requires a non-empty base directory.  On an
    empty [channel_directory] the index [length() - 1] underflows to
    [SIZE_MAX], which is out of bounds, and the call is undefined; on every
    non-empty one the index is in bounds and the call returns a path. *)
Theorem BuildPipeName_defined_iff_nonempty :
  Cxx.size_sub (Cxx.length "") 1 = Cxx.SIZE_MAX /\
  Cxx.at_index "" Cxx.SIZE_MAX = None /\
  forall (channel_directory channel_name : string) (pipe_index : N),
    BuildPipeName channel_directory channel_name pipe_index = None
    <-> channel_directory = "".
Proof.
  split; [reflexivity|]. split; [reflexivity|].
  intros d c i. split.
  - intros H. destruct (string_dec d "") as [E|Hne]; [exact E|].
    destruct (BuildPipeName_defined d c i Hne) as [p Hp]. congruence.
  - intros ->. reflexivity.
Qed.

(** ** [MakeDataset] *)

Section MakeDatasetFacts.

Context {host : Host}.

Lemma supported_format_test (f : string) :
  String.eqb f "RecordIO" || String.eqb f "TFRecord" || String.eqb f "TextLine" = true
  <-> supported_format f.
Proof.
  unfold supported_format.
  rewrite !orb_true_iff, !String.eqb_eq. tauto.
Qed.

(** [MakeDataset] opens nothing and writes no state, whatever it is given. *)
Lemma MakeDataset_world (ctx : OpKernelContext) (w : World) :
  snd (MakeDataset ctx w) = w.
Proof.
  unfold MakeDataset.
  repeat match goal with
         | |- context [match ?x with _ => _ end] => destruct x
         end; reflexivity.
Qed.

(** C1: the format tag is validated at the boundary.  With its four
    arguments read, [MakeDataset] hands out a dataset exactly when
    [record_format] is "RecordIO", "TFRecord" or "TextLine"; on any other
    string it records [InvalidArgument], leaves the output unset and has
    opened no FIFO: the world, with its log of opened paths, is as before. *)
Theorem MakeDataset_validates_record_format
    (ctx : OpKernelContext) (w : World)
    (record_format state_directory channel_directory channel : string) :
  ParseScalarArgument ctx "record_format" = inr record_format ->
  ParseScalarArgument ctx "state_directory" = inr state_directory ->
  ParseScalarArgument ctx "channel_directory" = inr channel_directory ->
  ParseScalarArgument ctx "channel" = inr channel ->
  ((exists ds, snd (fst (MakeDataset ctx w)) = Some ds)
     <-> supported_format record_format) /\
  (supported_format record_format ->
     MakeDataset ctx w =
       (ctx,
        Some (Dataset_new record_format state_directory channel_directory channel),
        w)) /\
  (~ supported_format record_format ->
     MakeDataset ctx w =
       (CtxFailure ctx (InvalidArgument ("Invalid record format: " ++ record_format)),
        None, w) /\
     opened_fifos (snd (MakeDataset ctx w)) = opened_fifos w).
Proof.
  intros Hf Hs Hd Hc.
  assert (Hyes : supported_format record_format ->
            MakeDataset ctx w =
              (ctx,
               Some (Dataset_new record_format state_directory channel_directory channel),
               w)).
  { intros Hsup. apply supported_format_test in Hsup.
    unfold MakeDataset. rewrite Hf, Hs, Hd, Hc, Hsup. reflexivity. }
  assert (Hno : ~ supported_format record_format ->
            MakeDataset ctx w =
              (CtxFailure ctx
                 (InvalidArgument ("Invalid record format: " ++ record_format)),
               None, w)).
  { intros Hsup. rewrite <- supported_format_test in Hsup.
    apply not_true_is_false in Hsup.
    unfold MakeDataset. rewrite Hf, Hs, Hd, Hc, Hsup. reflexivity. }
  split; [|split].
  - split.
    + intros [ds Hds].
      destruct (String.eqb record_format "RecordIO"
                || String.eqb record_format "TFRecord"
                || String.eqb record_format "TextLine") eqn:E.
      * now apply supported_format_test.
      * assert (Hn : ~ supported_format record_format).
        { rewrite <- supported_format_test. congruence. }
        rewrite (Hno Hn) in Hds. discriminate.
    + intros Hsup. rewrite (Hyes Hsup). eauto.
  - exact Hyes.
  - intros Hn. split; [exact (Hno Hn)|]. now rewrite MakeDataset_world.
Qed.

End MakeDatasetFacts.

Lemma MakeDataset_validates_record_format_witness :
  MakeDataset (host := ArgsHost)
      (pipemode_args "CSV" "/opt/ml/state" "train" "/opt/ml/input/data") empty_world
    = (mkArgs (args (pipemode_args "CSV" "/opt/ml/state" "train" "/opt/ml/input/data"))
         (InvalidArgument "Invalid record format: CSV"),
       None, empty_world)
  /\ MakeDataset (host := ArgsHost)
      (pipemode_args "TFRecord" "/opt/ml/state" "train" "/opt/ml/input/data") empty_world
    = (pipemode_args "TFRecord" "/opt/ml/state" "train" "/opt/ml/input/data",
       Some (Dataset_new "TFRecord" "/opt/ml/state" "/opt/ml/input/data" "train"),
       empty_world).
Proof.
  split.
  - refine (proj1 (proj2 (proj2
      (MakeDataset_validates_record_format (host := ArgsHost)
         (pipemode_args "CSV" "/opt/ml/state" "train" "/opt/ml/input/data") empty_world
         "CSV" "/opt/ml/state" "/opt/ml/input/data" "train"
         eq_refl eq_refl eq_refl eq_refl)) _)).
    unfold supported_format. intros [H|[H|H]]; discriminate H.
  - refine (proj1 (proj2
      (MakeDataset_validates_record_format (host := ArgsHost)
         (pipemode_args "TFRecord" "/opt/ml/state" "train" "/opt/ml/input/data")
         empty_world
         "TFRecord" "/opt/ml/state" "/opt/ml/input/data" "train"
         eq_refl eq_refl eq_refl eq_refl)) _).
    unfold supported_format. right. left. reflexivity.
Defined.

(** ** [AsGraphDefInternal] *)

(** C5, as the code has it: [AsGraphDefInternal] never returns a status and
    never produces a graph node; every invocation throws
    [std::runtime_error("Conversion to GraphDef is not supported.")]. *)
Theorem AsGraphDefInternal_throws
    (Builder Node : Type) (ds : Dataset) (b : Builder) (output : option Node) :
  AsGraphDefInternal ds b output
    = Thrown (runtime_error "Conversion to GraphDef is not supported.").
Proof. reflexivity. Qed.

(** C5 as stated fails: no status, "not supported" or other, is returned to
    the caller. *)
Lemma AsGraphDefInternal_returns_no_status :
  ~ exists (s : Status) (node : option unit),
      AsGraphDefInternal
        (Dataset_new "TFRecord" "/opt/ml/state" "/opt/ml/input/data" "train")
        tt None
      = Returned (s, node).
Proof. intros (s & node & H). discriminate H. Qed.

(** ** The iterator *)

Section IteratorFacts.

Context {RIO TFR : Type}.
Context {RecordIOReader : RecordReader RIO}.
Context {TFRecordReader : RecordReader TFR}.

#[local] Abbreviation Iterator := (Iterator RIO TFR).
#[local] Abbreviation reader_ptr := (reader_ptr RIO TFR).

(** One call of [GetNextInternal] is one call of [ReadRecord]. *)
Lemma GetNextInternal_reader (it : Iterator) (out : list Tensor) (eos : bool) :
  record_reader_ (self (GetNextInternal it out eos))
    = snd (reader_ReadRecord (record_reader_ it)).
Proof.
  unfold GetNextInternal.
  destruct (reader_ReadRecord (record_reader_ it)) as [[[s|]|[m|m]] r']; reflexivity.
Qed.

(** C6, as the code has it: the pull catches [std::runtime_error] and
    nothing else.  A [std::runtime_error] of the reader comes back as the
    status [INTERNAL] carrying its message; any other exception is not turned
    into a status and leaves the call as it is; in both cases [ReadRecord]
    was called once, nothing was appended to the output and the
    end-of-sequence flag is false. *)
Theorem GetNextInternal_surfaces_reader_error
    (it : Iterator) (out : list Tensor) (eos : bool) (e : exn) (r' : reader_ptr) :
  reader_ReadRecord (record_reader_ it) = (Thrown e, r') ->
  let p := GetNextInternal it out eos in
  match e with
  | runtime_error what => result p = Returned (mkStatus INTERNAL what)
  | exception _ => result p = Thrown e
  end /\
  result p <> Returned Status_OK /\
  end_of_sequence p = false /\
  out_tensors p = out /\
  self p = with_reader it r'.
Proof.
  intros H. unfold GetNextInternal. rewrite H.
  destruct e as [what|what]; simpl; repeat split; discriminate.
Qed.

(** C7: the value-or-done contract.  When the reader yields a record, the
    call returns OK, appends that record as one scalar string tensor and
    leaves the end-of-sequence flag false; when the reader has no record, the
    call returns OK, appends nothing and sets the flag; and a call that
    returns OK did exactly one of the two. *)
Theorem GetNextInternal_value_or_done
    (it : Iterator) (out : list Tensor) (eos : bool) :
  let p := GetNextInternal it out eos in
  (forall record r',
      reader_ReadRecord (record_reader_ it) = (Returned (Some record), r') ->
      result p = Returned Status_OK /\
      out_tensors p = (out ++ [scalar_string record])%list /\
      end_of_sequence p = false) /\
  (forall r',
      reader_ReadRecord (record_reader_ it) = (Returned None, r') ->
      result p = Returned Status_OK /\
      out_tensors p = out /\
      end_of_sequence p = true) /\
  (result p = Returned Status_OK ->
     (exists record, out_tensors p = (out ++ [scalar_string record])%list
                     /\ end_of_sequence p = false
                     /\ fst (reader_ReadRecord (record_reader_ it))
                        = Returned (Some record))
     \/ (out_tensors p = out /\ end_of_sequence p = true
         /\ fst (reader_ReadRecord (record_reader_ it)) = Returned None)).
Proof.
  unfold GetNextInternal.
  destruct (reader_ReadRecord (record_reader_ it)) as [[[s|]|[m|m]] r'];
    simpl; repeat split; try congruence; intros.
  - left. exists s. auto.
  - right. auto.
  - discriminate.
Qed.

Lemma GetNextInternal_self (it : Iterator) (out out' : list Tensor) (eos eos' : bool) :
  self (GetNextInternal it out eos) = self (GetNextInternal it out' eos').
Proof.
  unfold GetNextInternal.
  destruct (reader_ReadRecord (record_reader_ it)) as [[[s|]|[m|m]] r']; reflexivity.
Qed.

Lemma iterator_after_reader (n : nat) (it : Iterator) :
  record_reader_ (iterator_after n it)
    = reader_after n (record_reader_ it).
Proof.
  revert it. induction n as [|n IH]; intros it; [reflexivity|].
  simpl. rewrite IH. now rewrite GetNextInternal_reader.
Qed.

(** C2, as the code has it: the iterator keeps no terminal state of its own.
    After a pull that ended the sequence or failed, every later pull returns
    the same result, with the same end-of-sequence flag and no record,
    provided the reader reports the same outcome on every later
    [ReadRecord]. *)
Theorem GetNextInternal_terminal_as_reader
    (it : Iterator) (out : list Tensor) (eos : bool) :
  let p := GetNextInternal it out eos in
  terminal p ->
  (forall n,
      fst (reader_ReadRecord (reader_after n (record_reader_ (self p))))
        = fst (reader_ReadRecord (record_reader_ it))) ->
  forall n out' eos',
    let q := GetNextInternal (iterator_after n (self p)) out' eos' in
    result q = result p /\
    end_of_sequence q = end_of_sequence p /\
    out_tensors q = out'.
Proof.
  intros p Hterm Hsame n out' eos' q.
  specialize (Hsame n). rewrite <- iterator_after_reader in Hsame.
  subst q. revert Hsame. generalize (iterator_after n (self p)).
  intros it' Hsame. subst p. revert Hterm.
  unfold terminal, GetNextInternal.
  destruct (reader_ReadRecord (record_reader_ it')) as [o' r1].
  destruct (reader_ReadRecord (record_reader_ it)) as [o r0].
  simpl in Hsame. subst o'.
  destruct o as [[s|]|[m|m]]; simpl; intros Hterm; auto.
  destruct Hterm as [H|H]; [now elim H | discriminate].
Qed.

(** C9: the choice of reader in the constructor is total and falls through
    to the text-line reader.  The constructor is undefined only where
    [BuildPipeName] is, whatever the format; for a format that is neither
    "RecordIO" nor "TFRecord" it is the constructor of
    [TextLineRecordReader] that is called on the pipe path, returning or
    throwing as that constructor does; and an iterator that comes out for
    such a format reads through a [TextLineRecordReader]. *)
Theorem Iterator_new_defaults_to_TextLine
    (params_prefix channel_directory channel : string) (index : N) (w : World) :
  (forall record_format,
      Iterator_new (RIO := RIO) (TFR := TFR) params_prefix record_format
        channel_directory channel index w = None
      <-> BuildPipeName channel_directory channel index = None) /\
  (forall record_format,
      record_format <> "RecordIO" -> record_format <> "TFRecord" ->
      Iterator_new (RIO := RIO) (TFR := TFR) params_prefix record_format
        channel_directory channel index w =
        match BuildPipeName channel_directory channel index with
        | None => None
        | Some path =>
            Some (outcome_map (mkIterator params_prefix index path)
                    (outcome_map TextLine
                       (reader_new (R := TextLineRecordReader) w path)),
                  mkWorld (state_files w) (fifo_bytes w) (opened_fifos w ++ [path]))
        end) /\
  (forall record_format (it : Iterator) (w' : World),
      record_format <> "RecordIO" -> record_format <> "TFRecord" ->
      Iterator_new params_prefix record_format channel_directory channel index w
        = Some (Returned it, w') ->
      exists r : TextLineRecordReader, record_reader_ it = TextLine r).
Proof.
  assert (Hsel : forall record_format,
      record_format <> "RecordIO" -> record_format <> "TFRecord" ->
      Iterator_new (RIO := RIO) (TFR := TFR) params_prefix record_format
        channel_directory channel index w =
        match BuildPipeName channel_directory channel index with
        | None => None
        | Some path =>
            Some (outcome_map (mkIterator params_prefix index path)
                    (outcome_map TextLine
                       (reader_new (R := TextLineRecordReader) w path)),
                  mkWorld (state_files w) (fifo_bytes w) (opened_fifos w ++ [path]))
        end).
  { intros record_format H1 H2. unfold Iterator_new.
    apply String.eqb_neq in H1, H2. rewrite H1, H2. reflexivity. }
  split; [|split].
  - intros record_format. unfold Iterator_new.
    destruct (BuildPipeName channel_directory channel index); split; congruence.
  - exact Hsel.
  - intros record_format it w' H1 H2 H. rewrite (Hsel record_format H1 H2) in H.
    destruct (BuildPipeName channel_directory channel index) as [path|]; [|discriminate].
    destruct (reader_new (R := TextLineRecordReader) w path) as [r|e];
      simpl in H; [|discriminate].
    injection H as <- _. exists r. reflexivity.
Qed.

End IteratorFacts.

Lemma GetNextInternal_surfaces_reader_error_witness :
  let p := GetNextInternal (RecordIOReader := ScriptedReader no_script)
             (TFRecordReader := ScriptedReader no_script)
             damaged_then_sound [scalar_string "kept"] true in
  result p = Returned (mkStatus INTERNAL "Invalid magic number") /\
  result p <> Returned Status_OK /\
  end_of_sequence p = false /\
  out_tensors p = [scalar_string "kept"] /\
  self p = with_reader damaged_then_sound (RecordIO [Returned (Some "payload")]).
Proof.
  exact (GetNextInternal_surfaces_reader_error
           (RecordIOReader := ScriptedReader no_script)
           (TFRecordReader := ScriptedReader no_script)
           damaged_then_sound [scalar_string "kept"] true
           (runtime_error "Invalid magic number")
           (RecordIO [Returned (Some "payload")]) eq_refl).
Defined.

Lemma GetNextInternal_value_or_done_witness :
  let next := GetNextInternal (RecordIOReader := ScriptedReader no_script)
                (TFRecordReader := ScriptedReader no_script) in
  (result (next sound_record [scalar_string "kept"] true) = Returned Status_OK /\
   out_tensors (next sound_record [scalar_string "kept"] true)
     = [scalar_string "kept"; scalar_string "payload"] /\
   end_of_sequence (next sound_record [scalar_string "kept"] true) = false) /\
  (result (next drained_text [scalar_string "kept"] false) = Returned Status_OK /\
   out_tensors (next drained_text [scalar_string "kept"] false)
     = [scalar_string "kept"] /\
   end_of_sequence (next drained_text [scalar_string "kept"] false) = true).
Proof.
  split.
  - exact (proj1 (GetNextInternal_value_or_done
                    (RecordIOReader := ScriptedReader no_script)
                    (TFRecordReader := ScriptedReader no_script)
                    sound_record [scalar_string "kept"] true)
             "payload" (RecordIO []) eq_refl).
  - exact (proj1 (proj2 (GetNextInternal_value_or_done
                    (RecordIOReader := ScriptedReader no_script)
                    (TFRecordReader := ScriptedReader no_script)
                    drained_text [scalar_string "kept"] false))
             (TextLine (mkTextLine "")) eq_refl).
Defined.

Lemma reader_after_drained (n : nat) :
  reader_after (RecordIOReader := ScriptedReader no_script)
      (TFRecordReader := ScriptedReader no_script) n
      (TextLine (mkTextLine ""))
    = TextLine (mkTextLine "").
Proof. induction n as [|n IH]; [reflexivity | exact IH]. Qed.

Lemma GetNextInternal_terminal_as_reader_witness :
  let next := GetNextInternal (RecordIOReader := ScriptedReader no_script)
                (TFRecordReader := ScriptedReader no_script) in
  result (next (iterator_after (RecordIOReader := ScriptedReader no_script)
                  (TFRecordReader := ScriptedReader no_script) 3
                  (self (next drained_text [] false)))
            [scalar_string "kept"] false)
    = Returned Status_OK /\
  end_of_sequence
      (next (iterator_after (RecordIOReader := ScriptedReader no_script)
               (TFRecordReader := ScriptedReader no_script) 3
               (self (next drained_text [] false)))
         [scalar_string "kept"] false)
    = true /\
  out_tensors
      (next (iterator_after (RecordIOReader := ScriptedReader no_script)
               (TFRecordReader := ScriptedReader no_script) 3
               (self (next drained_text [] false)))
         [scalar_string "kept"] false)
    = [scalar_string "kept"].
Proof.
  refine (GetNextInternal_terminal_as_reader
            (RecordIOReader := ScriptedReader no_script)
            (TFRecordReader := ScriptedReader no_script)
            drained_text [] false _ _ 3%nat [scalar_string "kept"] false).
  - right. reflexivity.
  - intros n. simpl. rewrite reader_after_drained. reflexivity.
Defined.

(** C6 as stated fails: an exception of the reader that is no
    [std::runtime_error] is not surfaced as a status; it escapes the call. *)
Lemma GetNextInternal_other_exception_escapes :
  let p := GetNextInternal (RecordIOReader := ScriptedReader no_script)
             (TFRecordReader := ScriptedReader no_script)
             logic_error_then_sound [] false in
  result p = Thrown (exception "basic_string::substr") /\
  ~ (exists s : Status, result p = Returned s).
Proof.
  cbv zeta. split; [reflexivity|]. intros [s H]. discriminate H.
Qed.

(** C2 as stated fails: a pull that failed is followed by a record, and so is
    a pull that ended the sequence. *)
Lemma GetNextInternal_terminal_not_latched :
  let next := GetNextInternal (RecordIOReader := ScriptedReader no_script)
                (TFRecordReader := ScriptedReader no_script) in
  (let p1 := next damaged_then_sound [] false in
   let p2 := next (self p1) (out_tensors p1) (end_of_sequence p1) in
   result p1 = Returned (mkStatus INTERNAL "Invalid magic number") /\
   terminal p1 /\
   result p2 = Returned Status_OK /\
   out_tensors p2 = [scalar_string "payload"] /\
   end_of_sequence p2 = false) /\
  (let p1 := next closed_then_written [] false in
   let p2 := next (self p1) (out_tensors p1) (end_of_sequence p1) in
   result p1 = Returned Status_OK /\
   end_of_sequence p1 = true /\
   terminal p1 /\
   result p2 = Returned Status_OK /\
   out_tensors p2 = [scalar_string "late"] /\
   end_of_sequence p2 = false).
Proof.
  cbv zeta. unfold terminal. simpl.
  repeat split; try reflexivity.
  - left. discriminate.
  - right. reflexivity.
Qed.

Lemma Iterator_new_defaults_to_TextLine_witness :
  Iterator_new (RecordIOReader := ScriptedReader no_script)
      (TFRecordReader := ScriptedReader no_script)
      "::PipeMode-train-0" "CSV" "/opt/ml/input/data" "train" 0 empty_world
    = Some (Returned (mkIterator "::PipeMode-train-0" 0 "/opt/ml/input/data/train_0"
                        (TextLine (mkTextLine ""))),
            mkWorld ∅ (fun _ => Some "") ["/opt/ml/input/data/train_0"])
  /\ Iterator_new (RecordIOReader := ScriptedReader no_script)
      (TFRecordReader := ScriptedReader no_script)
      "::PipeMode-train-0" "CSV" "/opt/ml/input/data" "train" 0 unreadable_world
    = Some (Thrown ConstructionError,
            mkWorld ∅ (fun _ => None) ["/opt/ml/input/data/train_0"]).
Proof.
  split.
  - refine (proj1 (proj2 (Iterator_new_defaults_to_TextLine
                   (RecordIOReader := ScriptedReader no_script)
                   (TFRecordReader := ScriptedReader no_script)
                   "::PipeMode-train-0" "/opt/ml/input/data" "train" 0 empty_world))
              "CSV" _ _); discriminate.
  - refine (proj1 (proj2 (Iterator_new_defaults_to_TextLine
                   (RecordIOReader := ScriptedReader no_script)
                   (TFRecordReader := ScriptedReader no_script)
                   "::PipeMode-train-0" "/opt/ml/input/data" "train" 0 unreadable_world))
              "CSV" _ _); discriminate.
Defined.

(** ** [MakeIterator] and the pipe index *)

Lemma uint32_small (n : N) : (n < 2 ^ 32)%N -> Cxx.uint32 n = n.
Proof. intros H. unfold Cxx.uint32. now apply N.mod_small. Qed.

Lemma GetPipeIndex_increment (m : PipeStateManager) (w w' : World) :
  IncrementPipeIndex m true w = Returned w' ->
  GetPipeIndex m w' = Cxx.uint32 (GetPipeIndex m w + 1).
Proof.
  unfold IncrementPipeIndex. intros H. injection H as <-.
  unfold GetPipeIndex at 1. simpl. now rewrite lookup_insert_eq.
Qed.

Lemma BuildPipeName_index_inj (d c p : string) (i j : N) :
  BuildPipeName d c i = Some p -> BuildPipeName d c j = Some p -> i = j.
Proof.
  unfold BuildPipeName.
  destruct (Cxx.at_index d (Cxx.size_sub (Cxx.length d) 1)) as [x|]; [|discriminate].
  intros Hi Hj. rewrite <- Hj in Hi. injection Hi as Hi.
  apply string_app_inv_head in Hi. apply string_app_inv_head in Hi.
  apply string_app_inv_head in Hi. symmetry. now apply to_string_inj.
Qed.

Section MakeIteratorFacts.

Context {RIO TFR : Type}.
Context {RecordIOReader : RecordReader RIO}.
Context {TFRecordReader : RecordReader TFR}.

#[local] Abbreviation Iterator := (Iterator RIO TFR).

Lemma Iterator_new_fields (params_prefix f d c : string) (i : N) (w w' : World)
    (r : outcome Iterator) :
  Iterator_new params_prefix f d c i w = Some (r, w') ->
  state_files w' = state_files w /\
  match r with
  | Returned it => pipe_index it = i /\ BuildPipeName d c i = Some (pipe_path it)
  | Thrown _ => True
  end.
Proof.
  unfold Iterator_new.
  destruct (BuildPipeName d c i) as [path|]; [|discriminate].
  intros H. injection H as <- <-. split; [reflexivity|].
  destruct (String.eqb f "RecordIO"); [|destruct (String.eqb f "TFRecord")];
    first [ match goal with
            | |- context [@reader_new ?R ?I w path] => destruct (@reader_new R I w path)
            end
          | destruct (fifo_bytes w path) ]; simpl; auto.
Qed.

(** One call: on a non-empty channel directory the call is defined; an
    iterator it returns was built on the stored index, which the call then
    advanced by one in [uint32_t]; a call that throws leaves the index. *)
Lemma MakeIterator_step (ds : Dataset) (prefix : string) (persists : bool) (w : World) :
  channel_directory_ ds <> "" ->
  exists (r : outcome Iterator) (w' : World),
    MakeIterator ds prefix persists w = Some (r, w') /\
    match r with
    | Returned it =>
        pipe_index it = Cxx.uint32 (GetPipeIndex (pipe_state_manager_ ds) w) /\
        built_on ds it /\
        GetPipeIndex (pipe_state_manager_ ds) w'
          = Cxx.uint32 (GetPipeIndex (pipe_state_manager_ ds) w + 1)
    | Thrown _ =>
        GetPipeIndex (pipe_state_manager_ ds) w'
          = GetPipeIndex (pipe_state_manager_ ds) w
    end.
Proof.
  intros Hne. unfold MakeIterator.
  set (i := Cxx.uint32 (GetPipeIndex (pipe_state_manager_ ds) w)).
  set (pre := prefix ++ _).
  destruct (Iterator_new (RIO := RIO) (TFR := TFR) pre (record_format_ ds)
              (channel_directory_ ds) (channel_ ds) i w) as [[r w1]|] eqn:E.
  - destruct (Iterator_new_fields _ _ _ _ _ _ _ _ E) as [Hst Hr].
    assert (Hidx : GetPipeIndex (pipe_state_manager_ ds) w1
                   = GetPipeIndex (pipe_state_manager_ ds) w).
    { unfold GetPipeIndex. now rewrite Hst. }
    destruct r as [it|e].
    + destruct Hr as [Hi Hp].
      destruct persists.
      * destruct (IncrementPipeIndex (pipe_state_manager_ ds) true w1) as [w2|e] eqn:E2;
          [|discriminate E2].
        exists (Returned it), w2. split; [reflexivity|].
        split; [exact Hi|]. split.
        -- unfold built_on. now rewrite Hi.
        -- rewrite (GetPipeIndex_increment _ _ _ E2). now rewrite Hidx.
      * simpl. exists (Thrown StatePersistError), w1. split; [reflexivity|exact Hidx].
    + exists (Thrown e), w1. split; [reflexivity|exact Hidx].
  - exfalso. unfold Iterator_new in E.
    destruct (BuildPipeName_defined (channel_directory_ ds) (channel_ ds) i Hne) as [p Hp].
    rewrite Hp in E. discriminate.
Qed.

Lemma built_on_distinct_paths (ds : Dataset) (its : list Iterator) :
  Forall (built_on ds) its ->
  StronglySorted N.lt (pipe_index <$> its) ->
  NoDup (pipe_path <$> its).
Proof.
  induction its as [|it its IH]; intros Hb Hs; simpl; [constructor|].
  inversion Hb as [|? ? Hit Hrest]; subst.
  inversion Hs as [|? ? Hs' Hlt]; subst.
  apply NoDup_cons. split; [|auto].
  intros Hin. apply list_elem_of_fmap in Hin as (it' & Hpath & Hin').
  assert (Hb' : built_on ds it').
  { rewrite Forall_forall in Hrest. now apply Hrest. }
  assert (Hlt' : (pipe_index it < pipe_index it')%N).
  { rewrite Forall_forall in Hlt. apply Hlt.
    now apply list_elem_of_fmap_2. }
  unfold built_on in Hit, Hb'. rewrite <- Hpath in Hb'.
  pose proof (BuildPipeName_index_inj _ _ _ _ _ Hit Hb'). lia.
Qed.

Lemma MakeIterators_invariant (ds : Dataset) (calls : list (string * bool)) :
  channel_directory_ ds <> "" ->
  forall w : World,
    (GetPipeIndex (pipe_state_manager_ ds) w + N.of_nat (length calls) <= 2 ^ 32)%N ->
    exists (rs : list (outcome Iterator)) (w' : World),
      MakeIterators ds calls w = Some (rs, w') /\
      Forall (fun it => (GetPipeIndex (pipe_state_manager_ ds) w <= pipe_index it)%N
                        /\ built_on ds it)
             (returned_iterators rs) /\
      StronglySorted N.lt (pipe_index <$> returned_iterators rs).
Proof.
  intros Hne. induction calls as [|[prefix persists] calls IH]; intros w Hroom.
  - exists [], w. repeat split; constructor.
  - set (m := pipe_state_manager_ ds) in *.
    destruct (MakeIterator_step ds prefix persists w Hne) as (r & w1 & Hstep & Hr).
    fold m in Hr. simpl length in Hroom.
    assert (Hsmall : (GetPipeIndex m w < 2 ^ 32)%N) by lia.
    destruct r as [it|e].
    + destruct Hr as (Hi & Hb & Hnext).
      rewrite (uint32_small _ Hsmall) in Hi.
      destruct (N.ltb_spec (GetPipeIndex m w + 1) (2 ^ 32)) as [Hlt|Hge].
      * rewrite (uint32_small _ Hlt) in Hnext.
        destruct (IH w1) as (rs & w2 & Hrun & Hall & Hsorted); [lia|].
        exists (Returned it :: rs), w2. simpl.
        rewrite Hstep, Hrun. split; [reflexivity|]. split.
        -- constructor; [split; [lia | exact Hb]|].
           eapply Forall_impl; [exact Hall|]. simpl. intros it' [H1 H2].
           split; [lia | exact H2].
        -- constructor; [exact Hsorted|].
           apply Forall_forall. intros i Hin.
           apply list_elem_of_fmap in Hin as (it' & -> & Hin').
           rewrite Forall_forall in Hall.
           destruct (Hall it') as [H1 _]; [exact Hin' | lia].
      * assert (calls = []) as -> by (destruct calls; [reflexivity | simpl in Hroom; lia]).
        exists [Returned it], w1. simpl. rewrite Hstep.
        split; [reflexivity|]. split.
        -- constructor; [split; [lia | exact Hb] | constructor].
        -- constructor; constructor.
    + destruct (IH w1) as (rs & w2 & Hrun & Hall & Hsorted); [lia|].
      exists (Thrown e :: rs), w2. simpl.
      rewrite Hstep, Hrun. split; [reflexivity|]. split; [|exact Hsorted].
      eapply Forall_impl; [exact Hall|]. simpl. intros it' [H1 H2].
      split; [lia | exact H2].
Qed.


End MakeIteratorFacts.


Example MakeIterators_run :
  option_map (fun r => (pipe_path <$> returned_iterators (fst r),
                        opened_fifos (snd r),
                        GetPipeIndex (pipe_state_manager_ train_dataset) (snd r)))
    (MakeIterators (RecordIOReader := ScriptedReader no_script)
       (TFRecordReader := ScriptedReader no_script)
       train_dataset [("a", true); ("b", false); ("c", true)] empty_world)
  = Some (["/opt/ml/input/data/train_0"; "/opt/ml/input/data/train_1"],
          ["/opt/ml/input/data/train_0"; "/opt/ml/input/data/train_1";
           "/opt/ml/input/data/train_1"],
          2%N).
Proof. vm_compute. reflexivity. Qed.

(** ** The text-line reader *)

Lemma split_line_spec (s : string) :
  contains_LF (fst (split_line s)) = false /\
  (s = fst (split_line s) ++ String LF (snd (split_line s))
   \/ (s = fst (split_line s) /\ snd (split_line s) = "" /\ contains_LF s = false)) /\
  (String.length (snd (split_line s)) <= String.length s)%nat.
Proof.
  induction s as [|c s (IH1 & IH2 & IH3)]; simpl.
  - split; [reflexivity|]. split; [right; auto | lia].
  - destruct (Ascii.eqb c LF) eqn:Ec.
    + apply Ascii.eqb_eq in Ec. subst c. simpl.
      split; [reflexivity|]. split; [left; reflexivity | lia].
    + destruct (split_line s) as [line rest]. simpl in *. rewrite Ec. simpl.
      split; [exact IH1|]. split; [|lia].
      destruct IH2 as [->|(-> & -> & Hno)].
      * left. reflexivity.
      * right. auto.
Qed.

Lemma last_char_app_cons (a b : string) (c : ascii) :
  last_char (a ++ String c b) = last_char (String c b).
Proof.
  induction a as [|x a IH]; [reflexivity|].
  rewrite string_app_cons.
  change (last_char (String x (a ++ String c b)))
    with (match a ++ String c b with
          | EmptyString => Some x
          | String _ _ => last_char (a ++ String c b)
          end).
  destruct (a ++ String c b) eqn:E; [|exact IH].
  destruct a; discriminate E.
Qed.

Lemma last_char_cons_nonempty (c : ascii) (s : string) :
  s <> "" -> last_char (String c s) = last_char s.
Proof. destruct s; [congruence | reflexivity]. Qed.

Lemma last_char_no_LF (s : string) (c : ascii) :
  contains_LF s = false -> last_char s = Some c -> Ascii.eqb c LF = false.
Proof.
  induction s as [|x s IH]; [discriminate|].
  simpl contains_LF. intros H. apply orb_false_iff in H as [Hx Hs].
  destruct s as [|y s].
  - simpl. intros E. injection E as <-. exact Hx.
  - intros E. apply IH; [exact Hs | exact E].
Qed.

Lemma terminated_line_then_rest (line rest : string) :
  terminated (line ++ String LF rest) = line ++ String LF (terminated rest).
Proof.
  unfold terminated. rewrite last_char_app_cons.
  destruct rest as [|c rest].
  - reflexivity.
  - rewrite last_char_cons_nonempty by discriminate.
    destruct (last_char (String c rest)) as [x|]; [|reflexivity].
    destruct (Ascii.eqb x LF); [reflexivity|].
    rewrite string_app_assoc. now rewrite string_app_cons.
Qed.

Lemma terminated_last_line (s : string) :
  s <> "" -> contains_LF s = false -> terminated s = s ++ String LF "".
Proof.
  intros Hne Hno. unfold terminated.
  destruct (last_char s) as [c|] eqn:E.
  - now rewrite (last_char_no_LF s c Hno E).
  - destruct s as [|a s]; [congruence|]. exfalso.
    clear -E. revert a E. induction s as [|b s IH]; intros a E; [discriminate|].
    apply (IH b). exact E.
Qed.

(** With fuel beyond the length of the stream the reader is drained, no
    record holds a line feed, and the records joined are the stream. *)
Lemma TextLine_read_all_spec (fuel : nat) :
  forall s : string,
    (String.length s < fuel)%nat ->
    snd (TextLine_read_all fuel (mkTextLine s)) = mkTextLine "" /\
    Forall (fun r => contains_LF r = false) (fst (TextLine_read_all fuel (mkTextLine s))) /\
    join_lines (fst (TextLine_read_all fuel (mkTextLine s))) = terminated s.
Proof.
  induction fuel as [|fuel IH]; intros s Hlen; [lia|].
  destruct s as [|c s].
  - simpl. repeat split. constructor.
  - pose proof (split_line_spec (String c s)) as (Hno & Hsplit & Hshort).
    cbn [TextLine_read_all TextLine_ReadRecord pending].
    remember (split_line (String c s)) as sl eqn:Esl.
    destruct sl as [line rest]. simpl fst in *. simpl snd in *.
    assert (Hrest : (String.length rest < fuel)%nat).
    { destruct Hsplit as [E|(_ & E & _)].
      - apply (f_equal String.length) in E.
        rewrite string_app_length in E. simpl in E, Hlen |- *. lia.
      - rewrite E. simpl in Hlen |- *. lia. }
    destruct (IH rest Hrest) as (Hdrained & Hall & Hjoin).
    destruct (TextLine_read_all fuel (mkTextLine rest)) as [lines r''].
    simpl fst in *. simpl snd in *.
    split; [exact Hdrained|]. split; [constructor; assumption|].
    simpl join_lines. rewrite Hjoin.
    destruct Hsplit as [E|(E & -> & Hnone)].
    + rewrite E. now rewrite terminated_line_then_rest.
    + rewrite <- E in *.
      rewrite (terminated_last_line (String c s)); [reflexivity | discriminate | exact Hnone].
Qed.

(** C8: the text-line reader splits the stream at line feeds, the delimiter
    left out, and returns a non-empty last fragment as a record.  The three
    streams of the specification give the records it lists, each followed by
    end-of-stream; and on every stream the reader ends drained (its next
    [ReadRecord] reports no record), no record holds a line feed, and the
    records, each followed by a line feed, are the stream with its last line
    terminated. *)
Theorem TextLine_splits_on_line_feeds :
  TextLine_read_all 4 (mkTextLine ("a" ++ nl ++ "b" ++ nl ++ "c"))
    = (["a"; "b"; "c"], mkTextLine "") /\
  TextLine_read_all 3 (mkTextLine ("a" ++ nl ++ "b" ++ nl))
    = (["a"; "b"], mkTextLine "") /\
  TextLine_read_all 1 (mkTextLine "") = ([], mkTextLine "") /\
  TextLine_ReadRecord (mkTextLine "") = (Returned None, mkTextLine "") /\
  forall s : string,
    snd (TextLine_read_all (S (String.length s)) (mkTextLine s)) = mkTextLine "" /\
    Forall (fun r => contains_LF r = false) (TextLine_records s) /\
    join_lines (TextLine_records s) = terminated s.
Proof.
  repeat (split; [reflexivity|]).
  intros s. apply TextLine_read_all_spec. lia.
Qed.

(** The same streams through the iterator: three pulls with a record each,
    then the end of the sequence. *)
Example GetNextInternal_text_lines :
  let next := GetNextInternal (RecordIOReader := ScriptedReader no_script)
                (TFRecordReader := ScriptedReader no_script) in
  let it0 : Iterator Script Script :=
    mkIterator "::PipeMode-train-0" 0 "/opt/ml/input/data/train_0"
      (TextLine (mkTextLine ("a" ++ nl ++ "b" ++ nl ++ "c"))) in
  let p1 := next it0 [] false in
  let p2 := next (self p1) (out_tensors p1) (end_of_sequence p1) in
  let p3 := next (self p2) (out_tensors p2) (end_of_sequence p2) in
  let p4 := next (self p3) (out_tensors p3) (end_of_sequence p3) in
  out_tensors p4 = [scalar_string "a"; scalar_string "b"; scalar_string "c"] /\
  end_of_sequence p3 = false /\ end_of_sequence p4 = true /\
  result p4 = Returned Status_OK.
Proof. cbv zeta. repeat split; reflexivity. Qed.

(** ** More on [BuildPipeName] *)

Lemma BuildPipeName_one_separator_witness :
  BuildPipeName "/opt/ml/input/data" "train" 7
    = Some ("/opt/ml/input/data" ++ "/" ++ "train" ++ "_" ++ Cxx.to_string 7) /\
  BuildPipeName ("/opt/ml/input/data" ++ "/") "train" 7
    = BuildPipeName "/opt/ml/input/data" "train" 7.
Proof.
  apply (BuildPipeName_one_separator "/opt/ml/input/data" "train" 7).
  - discriminate.
  - vm_compute. reflexivity.
  - reflexivity.
Defined.

Lemma contains_char_app_sep (sep : ascii) (a x : string) :
  contains_char sep (a ++ String sep x) = true.
Proof.
  induction a as [|c a IH].
  - rewrite string_app_nil_l. simpl. now rewrite Ascii.eqb_refl.
  - rewrite string_app_cons. simpl. rewrite IH. apply orb_true_r.
Qed.

(** A string cut at its last separator: when neither tail holds the
    separator, equal strings have equal heads and equal tails. *)
Lemma app_sep_inj (sep : ascii) (a b x y : string) :
  contains_char sep x = false -> contains_char sep y = false ->
  a ++ String sep x = b ++ String sep y -> a = b /\ x = y.
Proof.
  intros Hx Hy. revert b.
  induction a as [|c a IH]; intros [|d b] E.
  - rewrite !string_app_nil_l in E. injection E as E. auto.
  - rewrite string_app_nil_l, string_app_cons in E. injection E as _ E.
    rewrite E, contains_char_app_sep in Hx. discriminate.
  - rewrite string_app_nil_l, string_app_cons in E. injection E as _ E.
    rewrite <- E, contains_char_app_sep in Hy. discriminate.
  - rewrite !string_app_cons in E. injection E as -> E.
    destruct (IH b E) as [-> ->]. auto.
Qed.

Lemma to_string_no_underscore (n : N) :
  contains_char "_" (Cxx.to_string n) = false.
Proof.
  unfold Cxx.to_string. induction (N.to_uint n); simpl; auto.
Qed.

Lemma to_string_no_dash (n : N) :
  contains_char "-" (Cxx.to_string n) = false.
Proof.
  unfold Cxx.to_string. induction (N.to_uint n); simpl; auto.
Qed.

(** X2: within one directory a FIFO path names one channel and one index.
    Two calls with the same directory that return the same path were given
    the same channel name and the same pipe index: the index is the digits
    after the last ['_'] of the path. *)
Theorem BuildPipeName_channel_index_inj
    (channel_directory c1 c2 path : string) (i1 i2 : N) :
  BuildPipeName channel_directory c1 i1 = Some path ->
  BuildPipeName channel_directory c2 i2 = Some path ->
  c1 = c2 /\ i1 = i2.
Proof.
  unfold BuildPipeName.
  destruct (Cxx.at_index channel_directory
              (Cxx.size_sub (Cxx.length channel_directory) 1)) as [x|];
    [|discriminate].
  intros H1 H2. rewrite <- H2 in H1. injection H1 as H1.
  apply string_app_inv_head in H1.
  change (c1 ++ String "_" (Cxx.to_string i1) = c2 ++ String "_" (Cxx.to_string i2)) in H1.
  apply app_sep_inj in H1; auto using to_string_no_underscore.
  destruct H1 as [Hc Hi]. split; [exact Hc|]. now apply to_string_inj.
Qed.

Lemma BuildPipeName_channel_index_inj_witness :
  "train" = "train" /\ 12%N = 12%N.
Proof.
  exact (BuildPipeName_channel_index_inj "/opt/ml/input/data/" "train" "train"
           "/opt/ml/input/data/train_12" 12 12 eq_refl eq_refl).
Defined.

(** ** More on [MakeDataset] *)

Section MakeDatasetResults.

Context {host : Host}.

(** X3: what [MakeDataset] hands back.  A dataset comes out only with the
    context untouched, all four arguments read and a supported format, and it
    is the dataset of exactly those arguments, its pipe state bound to the
    state directory and the channel; and when no dataset comes out, the
    context carries a failure status. *)
Theorem MakeDataset_dataset_or_failure (ctx : OpKernelContext) (w : World) :
  (forall ds,
      snd (fst (MakeDataset ctx w)) = Some ds ->
      fst (fst (MakeDataset ctx w)) = ctx /\
      exists record_format state_directory channel_directory channel,
        ParseScalarArgument ctx "record_format" = inr record_format /\
        ParseScalarArgument ctx "state_directory" = inr state_directory /\
        ParseScalarArgument ctx "channel_directory" = inr channel_directory /\
        ParseScalarArgument ctx "channel" = inr channel /\
        supported_format record_format /\
        ds = Dataset_new record_format state_directory channel_directory channel /\
        pipe_state_manager_ ds = mkPipeStateManager state_directory channel) /\
  (snd (fst (MakeDataset ctx w)) = None ->
   exists s, fst (fst (MakeDataset ctx w)) = CtxFailure ctx s).
Proof.
  unfold MakeDataset.
  destruct (ParseScalarArgument ctx "record_format") as [s1|f];
    [split; [discriminate | eauto]|].
  destruct (ParseScalarArgument ctx "state_directory") as [s2|sd];
    [split; [discriminate | eauto]|].
  destruct (ParseScalarArgument ctx "channel_directory") as [s3|cd];
    [split; [discriminate | eauto]|].
  destruct (ParseScalarArgument ctx "channel") as [s4|ch];
    [split; [discriminate | eauto]|].
  destruct (String.eqb f "RecordIO" || String.eqb f "TFRecord"
            || String.eqb f "TextLine") eqn:E.
  - split; [|discriminate]. simpl. intros ds Hds. injection Hds as <-.
    split; [reflexivity|]. exists f, sd, cd, ch.
    repeat split; try reflexivity. now apply supported_format_test.
  - split; [discriminate | eauto].
Qed.

(** X4: the first failure wins.  The arguments are read in the order
    record_format, state_directory, channel_directory, channel, the status of
    the first one that cannot be read is the status recorded, and the format
    is checked only once all four are read: an unreadable argument hides an
    unsupported format. *)
Theorem MakeDataset_first_failure (ctx : OpKernelContext) (w : World) (s : Status) :
  (ParseScalarArgument ctx "record_format" = inl s ->
   MakeDataset ctx w = (CtxFailure ctx s, None, w)) /\
  (forall f,
      ParseScalarArgument ctx "record_format" = inr f ->
      ParseScalarArgument ctx "state_directory" = inl s ->
      MakeDataset ctx w = (CtxFailure ctx s, None, w)) /\
  (forall f sd,
      ParseScalarArgument ctx "record_format" = inr f ->
      ParseScalarArgument ctx "state_directory" = inr sd ->
      ParseScalarArgument ctx "channel_directory" = inl s ->
      MakeDataset ctx w = (CtxFailure ctx s, None, w)) /\
  (forall f sd cd,
      ParseScalarArgument ctx "record_format" = inr f ->
      ParseScalarArgument ctx "state_directory" = inr sd ->
      ParseScalarArgument ctx "channel_directory" = inr cd ->
      ParseScalarArgument ctx "channel" = inl s ->
      MakeDataset ctx w = (CtxFailure ctx s, None, w)).
Proof.
  unfold MakeDataset. repeat split; intros.
  - now rewrite H.
  - now rewrite H, H0.
  - now rewrite H, H0, H1.
  - now rewrite H, H0, H1, H2.
Qed.

End MakeDatasetResults.

Lemma MakeDataset_dataset_or_failure_witness :
  fst (fst (MakeDataset (host := ArgsHost)
              (pipemode_args "RecordIO" "/opt/ml/state" "train" "/opt/ml/input/data")
              empty_world))
    = pipemode_args "RecordIO" "/opt/ml/state" "train" "/opt/ml/input/data".
Proof.
  exact (proj1 (proj1 (MakeDataset_dataset_or_failure (host := ArgsHost)
           (pipemode_args "RecordIO" "/opt/ml/state" "train" "/opt/ml/input/data")
           empty_world)
           (Dataset_new "RecordIO" "/opt/ml/state" "/opt/ml/input/data" "train")
           eq_refl)).
Defined.

Lemma MakeDataset_first_failure_witness :
  MakeDataset (host := ArgsHost)
      (mkArgs [("record_format", "CSV"); ("state_directory", "/opt/ml/state");
               ("channel_directory", "/opt/ml/input/data")] Status_OK)
      empty_world
    = (mkArgs [("record_format", "CSV"); ("state_directory", "/opt/ml/state");
               ("channel_directory", "/opt/ml/input/data")]
         (InvalidArgument "Missing argument: channel"),
       None, empty_world).
Proof.
  exact (proj2 (proj2 (proj2 (MakeDataset_first_failure (host := ArgsHost)
           (mkArgs [("record_format", "CSV"); ("state_directory", "/opt/ml/state");
                    ("channel_directory", "/opt/ml/input/data")] Status_OK)
           empty_world (InvalidArgument "Missing argument: channel"))))
           "CSV" "/opt/ml/state" "/opt/ml/input/data"
           eq_refl eq_refl eq_refl eq_refl).
Defined.

(** ** More on the iterator *)

Section PullFacts.

Context {RIO TFR : Type}.
Context {RecordIOReader : RecordReader RIO}.
Context {TFRecordReader : RecordReader TFR}.

#[local] Abbreviation Iterator := (Iterator RIO TFR).

(** One call in terms of the one result of [ReadRecord] it saw. *)
Lemma GetNextInternal_by_read (it : Iterator) (out : list Tensor) (eos : bool) :
  out_tensors (GetNextInternal it out eos)
    = (out ++ tensors_of (fst (reader_ReadRecord (record_reader_ it))))%list /\
  end_of_sequence (GetNextInternal it out eos)
    = done_of (fst (reader_ReadRecord (record_reader_ it))) /\
  record_reader_ (self (GetNextInternal it out eos))
    = snd (reader_ReadRecord (record_reader_ it)).
Proof.
  unfold GetNextInternal.
  destruct (reader_ReadRecord (record_reader_ it)) as [[[r|]|[m|m]] r'];
    simpl; rewrite ?app_nil_r; auto.
Qed.

(** X5: records come out in the order the reader produced them, one call
    of [ReadRecord] per pull.  Over any number of successive pulls, the k-th
    pull hands out exactly the record of the k-th [ReadRecord] (nothing when
    that call had none or threw), raises end-of-sequence exactly when that
    call returned false, and the iterator is left with the reader as those
    calls left it: nothing is read ahead, dropped, repeated or reordered. *)
Theorem pulls_follow_reads (n : nat) (it : Iterator) :
  (out_tensors <$> pulls n it) = (tensors_of <$> reads n (record_reader_ it)) /\
  (end_of_sequence <$> pulls n it) = (done_of <$> reads n (record_reader_ it)) /\
  record_reader_ (iterator_after n it) = reader_after n (record_reader_ it) /\
  length (pulls n it) = n.
Proof.
  revert it. induction n as [|n IH]; intros it; [repeat split|].
  destruct (GetNextInternal_by_read it [] false) as (Ho & He & Hr).
  destruct (IH (self (GetNextInternal it [] false))) as (IHo & IHe & IHr & IHl).
  change (pulls (S n) it)
    with (GetNextInternal it [] false :: pulls n (self (GetNextInternal it [] false))).
  change (reads (S n) (record_reader_ it))
    with (fst (reader_ReadRecord (record_reader_ it))
            :: reads n (snd (reader_ReadRecord (record_reader_ it)))).
  change (iterator_after (S n) it)
    with (iterator_after n (self (GetNextInternal it [] false))).
  change (reader_after (S n) (record_reader_ it))
    with (reader_after n (snd (reader_ReadRecord (record_reader_ it)))).
  rewrite !fmap_cons, IHo, IHe, IHr, Hr, Ho, He.
  simpl length. rewrite IHl. repeat split.
Qed.

(** X6: a pull only appends, and what it appends fits the declared output.
    The caller's tensors stay in front, untouched; at most one tensor is
    added, as many as [output_dtypes] has components; an added tensor is a
    scalar of the declared type [DT_STRING] holding one string; and the value
    [end_of_sequence] had before the call has no effect on it. *)
Theorem GetNextInternal_only_appends (it : Iterator) (out : list Tensor) (eos : bool) :
  (exists new : list Tensor,
      out_tensors (GetNextInternal it out eos) = (out ++ new)%list /\
      (length new <= length output_dtypes)%nat /\
      Forall (fun t => dtype t ∈ output_dtypes /\ shape t = [] /\ length (flat t) = 1%nat)
             new) /\
  GetNextInternal it out (negb eos) = GetNextInternal it out eos.
Proof.
  split; [|reflexivity].
  exists (tensors_of (fst (reader_ReadRecord (record_reader_ it)))).
  split; [apply GetNextInternal_by_read|].
  destruct (fst (reader_ReadRecord (record_reader_ it))) as [[r|]|e]; simpl.
  - split; [lia|]. constructor; [|constructor].
    repeat split. unfold output_dtypes. apply list_elem_of_here.
  - split; [lia | constructor].
  - split; [lia | constructor].
Qed.

End PullFacts.

Example pulls_of_damaged_then_sound :
  (result <$> pulls (RecordIOReader := ScriptedReader no_script)
                (TFRecordReader := ScriptedReader no_script) 3 damaged_then_sound)
    = [Returned (mkStatus INTERNAL "Invalid magic number");
       Returned Status_OK; Returned Status_OK] /\
  (out_tensors <$> pulls (RecordIOReader := ScriptedReader no_script)
                     (TFRecordReader := ScriptedReader no_script) 3 damaged_then_sound)
    = [[]; [scalar_string "payload"]; []] /\
  (end_of_sequence <$> pulls (RecordIOReader := ScriptedReader no_script)
                         (TFRecordReader := ScriptedReader no_script) 3 damaged_then_sound)
    = [false; false; true].
Proof. repeat split. Qed.

(** ** More on [MakeIterator] *)

Section MakeIteratorRuns.

Context {host : Host}.
Context {RIO TFR : Type}.
Context {RecordIOReader : RecordReader RIO}.
Context {TFRecordReader : RecordReader TFR}.

#[local] Abbreviation Iterator := (Iterator RIO TFR).

(** Everything one defined call does, read off its result. *)
Lemma MakeIterator_inv (ds : Dataset) (pre : string) (persists : bool)
    (w w' : World) (r : outcome Iterator) :
  MakeIterator ds pre persists w = Some (r, w') ->
  let m := pipe_state_manager_ ds in
  exists path,
    BuildPipeName (channel_directory_ ds) (channel_ ds)
      (Cxx.uint32 (GetPipeIndex m w)) = Some path /\
    opened_fifos w' = (opened_fifos w ++ [path])%list /\
    fifo_bytes w' = fifo_bytes w /\
    match r with
    | Returned it =>
        prefix it = pre ++ "::PipeMode-" ++ channel_ ds ++ "-"
                      ++ Cxx.to_string (GetPipeIndex m w) /\
        pipe_index it = Cxx.uint32 (GetPipeIndex m w) /\
        pipe_path it = path /\
        persists = true /\
        state_files w'
          = <[(psm_state_directory m, psm_channel m) :=
                Cxx.uint32 (GetPipeIndex m w + 1)]> (state_files w) /\
        reader_class (record_reader_ it)
          = (if String.eqb (record_format_ ds) "RecordIO" then "RecordIO"
             else if String.eqb (record_format_ ds) "TFRecord" then "TFRecord"
             else "TextLine")
    | Thrown _ => state_files w' = state_files w
    end.
Proof.
  intros H m. unfold MakeIterator, Iterator_new in H. fold m in H.
  destruct (BuildPipeName (channel_directory_ ds) (channel_ ds)
              (Cxx.uint32 (GetPipeIndex m w))) as [path|]; [|discriminate].
  exists path. split; [reflexivity|].
  destruct (String.eqb (record_format_ ds) "RecordIO");
    [|destruct (String.eqb (record_format_ ds) "TFRecord")];
    destruct (reader_new w path) as [rd|e]; simpl in H;
    try (injection H as <- <-; simpl; auto);
    destruct persists; simpl in H; injection H as <- <-; simpl;
    repeat split; reflexivity.
Qed.

Lemma GetPipeIndex_state_files (m : PipeStateManager) (w w' : World) :
  state_files w' = state_files w -> GetPipeIndex m w' = GetPipeIndex m w.
Proof. unfold GetPipeIndex. now intros ->. Qed.

Lemma GetPipeIndex_inserted (m : PipeStateManager) (w' : World)
    (files : gmap (string * string) N) (i : N) :
  state_files w' = <[(psm_state_directory m, psm_channel m) := i]> files ->
  GetPipeIndex m w' = i.
Proof. unfold GetPipeIndex. intros ->. now rewrite lookup_insert_eq. Qed.

Lemma uint32_le (n : N) : (Cxx.uint32 n <= n)%N.
Proof. unfold Cxx.uint32. apply N.Div0.mod_le. Qed.

Lemma uint32_succ (a k : N) :
  Cxx.uint32 (Cxx.uint32 a + k) = Cxx.uint32 (a + k).
Proof. unfold Cxx.uint32. apply N.Div0.add_mod_idemp_l. Qed.

(** X7: a call that throws leaves the index where it was.  Every defined
    call constructs one reader, on the path of the stored index; when the call
    throws (the reader's constructor, or the write of the new index), the
    state files are unchanged, and whatever call comes next constructs its
    reader on that same path again. *)
Theorem MakeIterator_throw_keeps_index
    (ds : Dataset) (pre : string) (persists : bool) (w w1 : World) (e : exn) :
  MakeIterator (RIO := RIO) (TFR := TFR) ds pre persists w = Some (Thrown e, w1) ->
  state_files w1 = state_files w /\
  exists path,
    BuildPipeName (channel_directory_ ds) (channel_ ds)
      (Cxx.uint32 (GetPipeIndex (pipe_state_manager_ ds) w)) = Some path /\
    opened_fifos w1 = (opened_fifos w ++ [path])%list /\
    forall pre' persists' (r : outcome Iterator) w2,
      MakeIterator ds pre' persists' w1 = Some (r, w2) ->
      opened_fifos w2 = (opened_fifos w1 ++ [path])%list.
Proof.
  intros H. destruct (MakeIterator_inv _ _ _ _ _ _ H) as (path & Hp & Ho & _ & Hs).
  split; [exact Hs|]. exists path. split; [exact Hp|]. split; [exact Ho|].
  intros pre' persists' r w2 H2.
  destruct (MakeIterator_inv _ _ _ _ _ _ H2) as (path' & Hp' & Ho' & _).
  rewrite (GetPipeIndex_state_files _ _ _ Hs) in Hp'.
  rewrite Hp in Hp'. injection Hp' as <-. exact Ho'.
Qed.

Lemma MakeDataset_supported (ctx : OpKernelContext) (w : World) (ds : Dataset) :
  snd (fst (MakeDataset ctx w)) = Some ds -> supported_format (record_format_ ds).
Proof.
  unfold MakeDataset.
  destruct (ParseScalarArgument ctx "record_format") as [s1|f]; [discriminate|].
  destruct (ParseScalarArgument ctx "state_directory") as [s2|sd]; [discriminate|].
  destruct (ParseScalarArgument ctx "channel_directory") as [s3|cd]; [discriminate|].
  destruct (ParseScalarArgument ctx "channel") as [s4|ch]; [discriminate|].
  destruct (String.eqb f "RecordIO" || String.eqb f "TFRecord"
            || String.eqb f "TextLine") eqn:E; [|discriminate].
  simpl. intros H. injection H as <-. simpl. now apply supported_format_test.
Qed.

(** X8: the reader is of the class the format tag names.  An iterator made
    from a dataset that [MakeDataset] handed out reads with a
    [RecordIOReader] for "RecordIO", a [TFRecordReader] for "TFRecord" and a
    [TextLineRecordReader] for "TextLine": behind the boundary check the
    constructor's last branch is taken by the tag "TextLine" only. *)
Theorem MakeIterator_reader_class
    (ctx : OpKernelContext) (w0 : World) (ds : Dataset)
    (pre : string) (persists : bool) (w w' : World) (it : Iterator) :
  snd (fst (MakeDataset ctx w0)) = Some ds ->
  MakeIterator ds pre persists w = Some (Returned it, w') ->
  reader_class (record_reader_ it) = record_format_ ds.
Proof.
  intros Hds H. apply MakeDataset_supported in Hds.
  destruct (MakeIterator_inv _ _ _ _ _ _ H) as (path & _ & _ & _ & Hit).
  destruct Hit as (_ & _ & _ & _ & _ & Hclass). rewrite Hclass.
  destruct Hds as [E|[E|E]]; rewrite E; reflexivity.
Qed.

Lemma MakeIterators_names_index (ds : Dataset) (calls : list (string * bool)) :
  forall (w w' : World) (rs : list (outcome Iterator)),
    (GetPipeIndex (pipe_state_manager_ ds) w + N.of_nat (length calls) <= 2 ^ 32)%N ->
    MakeIterators ds calls w = Some (rs, w') ->
    Forall (names_index ds) (returned_iterators rs).
Proof.
  induction calls as [|[pre persists] calls IH]; intros w w' rs Hroom Hrun.
  - injection Hrun as <- <-. constructor.
  - simpl in Hrun.
    destruct (MakeIterator ds pre persists w) as [[r w1]|] eqn:Hstep; [|discriminate].
    destruct (MakeIterators ds calls w1) as [[rs' w2]|] eqn:Hrest; [|discriminate].
    injection Hrun as <- <-.
    destruct (MakeIterator_inv _ _ _ _ _ _ Hstep) as (path & _ & _ & _ & Hr).
    simpl length in Hroom.
    assert (Hsmall : (GetPipeIndex (pipe_state_manager_ ds) w < 2 ^ 32)%N) by lia.
    destruct r as [it|e].
    + destruct Hr as (Hpre & Hidx & _ & _ & Hfiles & _).
      apply GetPipeIndex_inserted in Hfiles.
      pose proof (uint32_le (GetPipeIndex (pipe_state_manager_ ds) w + 1)).
      simpl. constructor.
      * exists pre. rewrite Hpre, Hidx. now rewrite (uint32_small _ Hsmall).
      * apply (IH w1 w2); [lia | exact Hrest].
    + simpl. apply (IH w1 w2); [|exact Hrest].
      rewrite (GetPipeIndex_state_files _ _ _ Hr). lia.
Qed.

Lemma prefix_cut_at_dash (p c t : string) :
  p ++ "::PipeMode-" ++ c ++ "-" ++ t = (p ++ "::PipeMode-" ++ c) ++ String "-" t.
Proof. rewrite !string_app_assoc. reflexivity. Qed.

Lemma names_index_distinct_prefixes (ds : Dataset) (its : list Iterator) :
  Forall (names_index ds) its ->
  StronglySorted N.lt (pipe_index <$> its) ->
  NoDup (prefix <$> its).
Proof.
  induction its as [|it its IH]; intros Hn Hs; simpl; [constructor|].
  inversion Hn as [|? ? Hit Hrest]; subst.
  inversion Hs as [|? ? Hs' Hlt]; subst.
  apply NoDup_cons. split; [|auto].
  intros Hin. apply list_elem_of_fmap in Hin as (it' & Hpre & Hin').
  assert (Hit' : names_index ds it') by (rewrite Forall_forall in Hrest; auto).
  assert (Hlt' : (pipe_index it < pipe_index it')%N).
  { rewrite Forall_forall in Hlt. apply Hlt. now apply list_elem_of_fmap_2. }
  destruct Hit as [p Hp]. destruct Hit' as [p' Hp'].
  rewrite Hp, Hp', !prefix_cut_at_dash in Hpre.
  apply app_sep_inj in Hpre; auto using to_string_no_dash.
  destruct Hpre as [_ Hi]. apply to_string_inj in Hi. lia.
Qed.


(** X10: the index counts the iterators handed out.  In every defined run
    each call constructs exactly one reader and yields one result; and from a
    stored index that is a [uint32_t], the index after the run is the index
    before it plus the number of iterators returned, in [uint32_t]: the calls
    that threw do not count. *)
Theorem MakeIterators_index_counts_returned
    (ds : Dataset) (calls : list (string * bool)) :
  forall (w w' : World) (rs : list (outcome Iterator)),
    MakeIterators ds calls w = Some (rs, w') ->
    (GetPipeIndex (pipe_state_manager_ ds) w < 2 ^ 32)%N ->
    length rs = length calls /\
    length (opened_fifos w') = (length (opened_fifos w) + length calls)%nat /\
    GetPipeIndex (pipe_state_manager_ ds) w'
      = Cxx.uint32 (GetPipeIndex (pipe_state_manager_ ds) w
                    + N.of_nat (length (returned_iterators rs))).
Proof.
  induction calls as [|[pre persists] calls IH]; intros w w' rs Hrun Hsmall.
  - injection Hrun as <- <-. simpl. rewrite N.add_0_r, uint32_small by exact Hsmall.
    repeat split. lia.
  - simpl in Hrun.
    destruct (MakeIterator ds pre persists w) as [[r w1]|] eqn:Hstep; [|discriminate].
    destruct (MakeIterators ds calls w1) as [[rs' w2]|] eqn:Hrest; [|discriminate].
    injection Hrun as <- <-.
    destruct (MakeIterator_inv _ _ _ _ _ _ Hstep) as (path & _ & Hopen & _ & Hr).
    assert (Hlen : length (opened_fifos w1) = S (length (opened_fifos w))).
    { rewrite Hopen, length_app. simpl. lia. }
    destruct r as [it|e].
    + destruct Hr as (_ & _ & _ & _ & Hfiles & _).
      apply GetPipeIndex_inserted in Hfiles.
      destruct (IH w1 w2 rs' Hrest) as (Hl & Ho & Hi).
      { rewrite Hfiles. unfold Cxx.uint32. now apply N.mod_upper_bound. }
      simpl length. split; [lia|]. split; [lia|].
      rewrite Hi, Hfiles, uint32_succ. f_equal. lia.
    + destruct (IH w1 w2 rs' Hrest) as (Hl & Ho & Hi).
      { now rewrite (GetPipeIndex_state_files _ _ _ Hr). }
      simpl length. split; [lia|]. split; [lia|].
      rewrite Hi. now rewrite (GetPipeIndex_state_files _ _ _ Hr).
Qed.

End MakeIteratorRuns.

Lemma MakeIterator_throw_keeps_index_witness :
  state_files (mkWorld ∅ (fun _ => Some "") ["/opt/ml/input/data/train_0"])
    = state_files empty_world.
Proof.
  refine (proj1 (MakeIterator_throw_keeps_index
                   (RecordIOReader := ScriptedReader no_script)
                   (TFRecordReader := ScriptedReader no_script)
                   train_dataset "a" false empty_world
                   (mkWorld ∅ (fun _ => Some "") ["/opt/ml/input/data/train_0"])
                   StatePersistError _)).
  vm_compute. reflexivity.
Defined.

Lemma MakeIterator_reader_class_witness :
  reader_class
    (record_reader_
       (mkIterator (RIO := Script) (TFR := Script) "a::PipeMode-train-0" 0
          "/opt/ml/input/data/train_0" (TFRecord [])))
    = record_format_
        (Dataset_new "TFRecord" "/opt/ml/state" "/opt/ml/input/data" "train").
Proof.
  refine (MakeIterator_reader_class (host := ArgsHost)
            (RecordIOReader := ScriptedReader no_script)
            (TFRecordReader := ScriptedReader no_script)
            (pipemode_args "TFRecord" "/opt/ml/state" "train" "/opt/ml/input/data")
            empty_world
            (Dataset_new "TFRecord" "/opt/ml/state" "/opt/ml/input/data" "train")
            "a" true empty_world
            (mkWorld {[ ("/opt/ml/state", "train") := 1%N ]} (fun _ => Some "")
               ["/opt/ml/input/data/train_0"])
            _ eq_refl _).
  vm_compute. reflexivity.
Defined.


Lemma MakeIterators_index_counts_returned_witness :
  GetPipeIndex (pipe_state_manager_ train_dataset)
    (mkWorld {[ ("/opt/ml/state", "train") := 0%N ]} (fun _ => Some "")
       ["/opt/ml/input/data/train_4294967295"; "/opt/ml/input/data/train_0"])
  = Cxx.uint32 (4294967295 + 1).
Proof.
  refine (proj2 (proj2 (MakeIterators_index_counts_returned
            (RecordIOReader := ScriptedReader no_script)
            (TFRecordReader := ScriptedReader no_script)
            train_dataset [("a", true); ("b", false)] last_index_world
            (mkWorld {[ ("/opt/ml/state", "train") := 0%N ]} (fun _ => Some "")
               ["/opt/ml/input/data/train_4294967295"; "/opt/ml/input/data/train_0"])
            [Returned (mkIterator "a::PipeMode-train-4294967295" 4294967295
                         "/opt/ml/input/data/train_4294967295"
                         (TextLine (mkTextLine "")));
             Thrown StatePersistError]
            _ _))).
  - vm_compute. reflexivity.
  - vm_compute. reflexivity.
Defined.
